(** * hart-pytorch [util.py]: box geometry, masked losses, gradient clipping
      and box rasterisation

    The numeric routines of [util.py] work on torch tensors of floating-point
    numbers.  A tensor entry is modelled as a value of [fval]: an exact real
    number, or one of the three special values of IEEE-754 arithmetic
    ([+inf], [-inf], [nan]).  The arithmetic of [fval] follows IEEE-754 on the
    special values (division by zero, logarithm and square root outside their
    domain, [nan] propagation, comparisons with [nan]); on finite values it is
    exact real arithmetic, so rounding and overflow are left out and the sign
    of a zero is not tracked (a zero divisor counts as [+0]).

    The rasterisation routine only rounds, truncates and compares
    coordinates; it is modelled over the rationals, where it runs. *)

From Stdlib Require Import String.
From Stdlib Require Import Reals Psatz Lia Bool ZArith QArith Qround List.
Import ListNotations.

Local Open Scope R_scope.

(* ================================================================== *)
(** ** Tensor entries *)

Inductive fval : Type :=
| Fin (r : R)
| PInf
| NInf
| NaN.

Definition Rltb (a b : R) : bool := if Rlt_dec a b then true else false.
Definition Rleb (a b : R) : bool := if Rle_dec a b then true else false.
Definition Reqb (a b : R) : bool := if Req_dec_T a b then true else false.

Definition fneg (a : fval) : fval :=
  match a with
  | Fin r => Fin (- r)
  | PInf => NInf
  | NInf => PInf
  | NaN => NaN
  end.

Definition fadd (a b : fval) : fval :=
  match a, b with
  | NaN, _ | _, NaN => NaN
  | Fin x, Fin y => Fin (x + y)
  | PInf, NInf | NInf, PInf => NaN
  | PInf, _ | _, PInf => PInf
  | NInf, _ | _, NInf => NInf
  end.

Definition fsub (a b : fval) : fval := fadd a (fneg b).

(** [signed r pos neg]: [pos] for a positive [r], [neg] for a negative one,
    [nan] for zero (the results of [r * inf] and of [r / 0]). *)
Definition signed (r : R) (pos neg : fval) : fval :=
  if Rltb 0 r then pos else if Rltb r 0 then neg else NaN.

Definition fmul (a b : fval) : fval :=
  match a, b with
  | NaN, _ | _, NaN => NaN
  | Fin x, Fin y => Fin (x * y)
  | Fin x, PInf | PInf, Fin x => signed x PInf NInf
  | Fin x, NInf | NInf, Fin x => signed x NInf PInf
  | PInf, PInf | NInf, NInf => PInf
  | PInf, NInf | NInf, PInf => NInf
  end.

Definition fdiv (a b : fval) : fval :=
  match a, b with
  | NaN, _ | _, NaN => NaN
  | Fin x, Fin y => if Reqb y 0 then signed x PInf NInf else Fin (x / y)
  | Fin _, _ => Fin 0
  | PInf, Fin y => if Rltb y 0 then NInf else PInf
  | NInf, Fin y => if Rltb y 0 then PInf else NInf
  | _, _ => NaN
  end.

(** [torch.log] *)
Definition flog (a : fval) : fval :=
  match a with
  | Fin x => if Rltb 0 x then Fin (ln x) else if Reqb x 0 then NInf else NaN
  | PInf => PInf
  | _ => NaN
  end.


(** Comparisons: every ordered comparison with [nan] is false, and
    [nan != y] is true. *)
Definition flt (a b : fval) : bool :=
  match a, b with
  | NaN, _ | _, NaN => false
  | Fin x, Fin y => Rltb x y
  | NInf, NInf | PInf, _ | _, NInf => false
  | _, _ => true
  end.

Definition fle (a b : fval) : bool :=
  match a, b with
  | NaN, _ | _, NaN => false
  | Fin x, Fin y => Rleb x y
  | NInf, _ | _, PInf => true
  | _, _ => false
  end.

Definition fgt (a b : fval) : bool := flt b a.
Definition fge (a b : fval) : bool := fle b a.

Definition feq (a b : fval) : bool :=
  match a, b with
  | Fin x, Fin y => Reqb x y
  | PInf, PInf | NInf, NInf => true
  | _, _ => false
  end.

Definition fne (a b : fval) : bool := negb (feq a b).

(** [T.max(a, b)] / [T.min(a, b)], elementwise; [x.clamp(min=m)] is
    [fmax x m] and [x.clamp(max=m)] is [fmin x m] ([nan] stays [nan]). *)
Definition fmax (a b : fval) : fval :=
  match a, b with
  | NaN, _ | _, NaN => NaN
  | PInf, _ | _, PInf => PInf
  | NInf, y => y
  | x, NInf => x
  | Fin x, Fin y => Fin (Rmax x y)
  end.

Definition fmin (a b : fval) : fval :=
  match a, b with
  | NaN, _ | _, NaN => NaN
  | NInf, _ | _, NInf => NInf
  | PInf, y => y
  | x, PInf => x
  | Fin x, Fin y => Fin (Rmin x y)
  end.

(** [(cond).float()] *)
Definition of_bool (b : bool) : fval := Fin (if b then 1 else 0).

(** [t.sum()] over a flattened axis. *)
Definition fsum (l : list fval) : fval := fold_left fadd l (Fin 0).

(** Elementwise binary operation on two tensors of the same shape. *)
Fixpoint zip_with {A B C : Type} (f : A -> B -> C) (l : list A) (m : list B)
  : list C :=
  match l, m with
  | a :: l', b :: m' => f a b :: zip_with f l' m'
  | _, _ => []
  end.

(* ================================================================== *)
(** ** Errors *)

Inductive error : Type :=
| AssertionError.

Inductive result (A : Type) : Type :=
| Ok (a : A)
| Err (e : error).
Arguments Ok {A} a.
Arguments Err {A} e.

Definition bind {A B : Type} (c : result A) (k : A -> result B) : result B :=
  match c with
  | Ok a => k a
  | Err e => Err e
  end.

Notation "x <- c ;; k" := (bind c (fun x => k))
  (at level 61, c at next level, right associativity).
Notation "c ;; k" := (bind c (fun _ => k))
  (at level 61, right associativity).

(** [assert cond] *)
Definition assert (cond : bool) : result unit :=
  if cond then Ok tt else Err AssertionError.

(* ================================================================== *)
(** ** Masked negative-log loss *)

Definition eps : R := 1 / 100000000.

(** [nll(x, eps=1e-8)], on one entry.  [nll_arg] is the argument handed
    to [T.log]. *)
Definition nll_dx (x : fval) : fval :=
  fmul (of_bool (flt (fsub x (Fin eps)) (Fin 0))) (Fin eps).

Definition nll_arg (x : fval) : fval := fadd x (nll_dx x).

Definition nll (x : fval) : fval := fneg (flog (nll_arg x)).

(** [(presence != 0).float()] on one entry. *)
Definition present (p : fval) : fval := of_bool (fne p (Fin 0)).

(** [masked_nll(x, presence, weight=None)]; [x], [presence] and [weight]
    have one shape [(batch_size, nobjs)], and the elementwise operations
    pair their entries in order.  The three stages are the values of
    [nll_x] after masking, of [p] and of [_nll] in the source. *)
Definition masked_terms (x presence : list (list fval))
    (weight : option (list (list fval))) : list (list fval) :=
  let nll_x := map (map nll) x in
  let nll_x := match weight with
               | Some w => zip_with (zip_with fmul) nll_x w
               | None => nll_x
               end in
  zip_with (zip_with fmul) nll_x (map (map present) presence).

Definition present_count (presence : list (list fval)) : list fval :=
  map fsum (map (map present) presence).

Definition masked_rows (x presence : list (list fval))
    (weight : option (list (list fval))) : list fval :=
  let nll_x := masked_terms x presence weight in
  let p := present_count presence in
  zip_with fmul
    (zip_with fdiv (map fsum nll_x) (map (fun v => fmax v (Fin 1)) p))
    (map present p).

Definition masked_nll (x presence : list (list fval))
    (weight : option (list (list fval))) : fval :=
  let p := present_count presence in
  let _nll := masked_rows x presence weight in
  fdiv (fsum _nll) (fsum (map present p)).

(** One row of [_nll]: what [masked_rows] computes for the row [xs] of [x],
    the row [ps] of [presence] and the row [ws] of [weight]. *)
Definition weighted_row (xs : list fval) (ws : option (list fval))
  : list fval :=
  match ws with
  | Some w => zip_with fmul (map nll xs) w
  | None => map nll xs
  end.

Definition row_nll (xs ps : list fval) (ws : option (list fval)) : fval :=
  let nll_x := zip_with fmul (weighted_row xs ws) (map present ps) in
  let p := fsum (map present ps) in
  fmul (fdiv (fsum nll_x) (fmax p (Fin 1))) (present p).

Definition row_weights {A : Type} (weight : option (list (list A))) (n : nat)
  : list (option (list A)) :=
  match weight with
  | Some w => map Some w
  | None => repeat None n
  end.




(* ================================================================== *)
(** ** Box geometry *)

(** A box [(x, y, w, h)]; a box tensor [(..., 4)] is the list of its boxes,
    leading axes flattened. *)
Record box : Type := mkBox {
  box_x : fval;
  box_y : fval;
  box_w : fval;
  box_h : fval
}.

Definition check_bbox_validness (b : list box) : result unit :=
  assert (forallb (fun v => fge (box_w v) (Fin 0)) b) ;;
  assert (forallb (fun v => fge (box_h v) (Fin 0)) b).

(** [detach()] changes the gradient only; the value is the one below. *)
Definition clamp_bbox (b : list box) : list box :=
  map (fun v =>
         let bw := fsub (box_w v) (fmin (box_w v) (Fin 0)) in
         let bh := fsub (box_h v) (fmin (box_h v) (Fin 0)) in
         mkBox (box_x v) (box_y v) bw bh) b.

Definition intersection_area (a b : list box) : list fval :=
  let x1 := zip_with fmax (map box_x a) (map box_x b) in
  let y1 := zip_with fmax (map box_y a) (map box_y b) in
  let x2 := zip_with fmin (zip_with fadd (map box_x a) (map box_w a))
                          (zip_with fadd (map box_x b) (map box_w b)) in
  let y2 := zip_with fmin (zip_with fadd (map box_y a) (map box_h a))
                          (zip_with fadd (map box_y b) (map box_h b)) in
  let w := map (fun v => fmax v (Fin 0)) (zip_with fsub x2 x1) in
  let h := map (fun v => fmax v (Fin 0)) (zip_with fsub y2 y1) in
  zip_with fmul w h.

Definition intersection (a b : list box) : result (list fval) :=
  check_bbox_validness a ;;
  check_bbox_validness b ;;
  Ok (intersection_area a b).

Definition iou (a b : list box) : result (list fval) :=
  i_area <- intersection a b ;;
  let a_area := zip_with fmul (map box_w a) (map box_h a) in
  let b_area := zip_with fmul (map box_w b) (map box_h b) in
  Ok (zip_with fdiv i_area (zip_with fsub (zip_with fadd a_area b_area) i_area)).

(* ================================================================== *)
(** ** Gradient clipping *)

(** A parameter, as far as [clip_grads] looks at it: [p.grad] is [None] or a
    tensor (flattened).  [named_params] is a collection that can be iterated
    twice, as a list. *)
Record param : Type := mkParam { grad : option (list fval) }.





(* ================================================================== *)
(** ** Box rasterisation *)

Section Rasterisation.
Local Open Scope Q_scope.

(** The box [yy] handed to [_bbox_to_mask]: [(x, y, w, h)]. *)
Record qbox : Type := mkQBox { qx : Q; qy : Q; qw : Q; qh : Q }.

(** Python's [int(v)] on a float, and [.int()] on a tensor: truncation
    toward zero. *)
Definition py_int (q : Q) : Z := Z.quot (Qnum q) (Zpos (Qden q)).

(** Python's builtin [max(a, b)] and [min(a, b)]: the first argument unless
    the second is strictly larger (smaller). *)
Definition py_max (a b : Q) : Q := match Qcompare a b with Lt => b | _ => a end.
Definition py_min (a b : Q) : Q := match Qcompare b a with Lt => b | _ => a end.

(** [T.round]: to the nearest integer, a half to the even neighbour. *)
Definition round_half_even (q : Q) : Z :=
  let f := Qfloor q in
  match Qcompare (q - inject_Z f) (1 # 2) with
  | Lt => f
  | Gt => (f + 1)%Z
  | Eq => if Z.even f then f else (f + 1)%Z
  end.

(** [T.ones(rows, cols)] *)
Definition ones (rows cols : Z) : list (list Q) :=
  repeat (repeat 1 (Z.to_nat cols)) (Z.to_nat rows).

(** One axis of [F.pad]: [before] and [after] entries [z] are added; a
    negative amount crops that side instead. *)
Definition pad_axis {A : Type} (z : A) (before after : Z) (l : list A)
  : list A :=
  let l1 := if (0 <=? before)%Z then repeat z (Z.to_nat before) ++ l
            else skipn (Z.to_nat (- before)) l in
  if (0 <=? after)%Z then l1 ++ repeat z (Z.to_nat after)
  else firstn (length l1 - Z.to_nat (- after)) l1.

(** [F.pad(core, (left, right, top, bottom))] with zeros. *)
Definition pad (core : list (list Q)) (pad_l pad_r pad_t pad_b : Z)
  : list (list Q) :=
  let rows := map (pad_axis 0 pad_l pad_r) core in
  let width := length (hd [] rows) in
  pad_axis (repeat 0 width) pad_t pad_b rows.

(** [scipy.misc.bytescale(data)] with its defaults [low=0], [high=255],
    [cmin=data.min()], [cmax=data.max()]; [cmax - cmin] is never negative,
    so its [ValueError] branch is left out. *)
Definition raster_fold (f : Q -> Q -> Q) (d : list (list Q)) : Q :=
  match concat d with
  | [] => 0
  | v :: r => fold_left f r v
  end.

Definition bytescale (data : list (list Q)) : list (list Z) :=
  let cmin := raster_fold py_min data in
  let cmax := raster_fold py_max data in
  let cscale := cmax - cmin in
  let cscale := if Qeq_bool cscale 0 then 1 else cscale in
  let scale := 255 / cscale in
  map (map (fun v =>
              let bytedata := (v - cmin) * scale + 0 in
              py_int (py_min (py_max bytedata 0) 255 + (1 # 2)))) data.

(** [scipy.misc.imresize(arr, size)] turns the array into an 8-bit image
    with [bytescale], resamples it with PIL's [Image.resize] (bilinear) and
    gives the result back as an array of shape [size].  The resampling is
    the parameter [resize] of the model. *)
Definition imresize (resize : list (list Z) -> nat * nat -> list (list Z))
    (arr : list (list Q)) (size : nat * nat) : list (list Z) :=
  resize (bytescale arr) size.

(** [_bbox_to_mask(yy, region_size, output_size)]; the tensor clamp
    [(-yy[:2]).clamp(min=0)] is the maximum with 0, entry by entry. *)
Definition _bbox_to_mask
    (resize : list (list Z) -> nat * nat -> list (list Z))
    (yy : qbox) (region_size : Q * Q) (output_size : nat * nat)
  : list (list Q) :=
  let neg_part := (py_max (- qx yy) 0, py_max (- qy yy) 0) in
  let core_shape :=
    (Z.max (round_half_even (qw yy - fst neg_part)) 1,
     Z.max (round_half_even (qh yy - snd neg_part)) 1) in
  let core := ones (snd core_shape) (fst core_shape) in
  let y1 := py_max (qy yy) 0 in
  let x1 := py_max (qx yy) 0 in
  let y2 := py_min (qy yy + qh yy) (fst region_size) in
  let x2 := py_min (qx yy + qw yy) (snd region_size) in
  let padspace :=
    (py_int x1, py_int (snd region_size - x2),
     py_int y1, py_int (fst region_size - y2)) in
  let padded :=
    match padspace with
    | (pad_l, pad_r, pad_t, pad_b) => pad core pad_l pad_r pad_t pad_b
    end in
  let mask :=
    map (firstn (Z.to_nat (Z.max (py_int (snd region_size)) 1)))
        (firstn (Z.to_nat (Z.max (py_int (fst region_size)) 1)) padded) in
  map (map (fun v => inject_Z v / 255)) (imresize resize mask output_size).

(** [bbox_to_mask(bbox, region_rows, region_cols, output_size)]: one raster
    per box, leading axes flattened. *)
Definition bbox_to_mask
    (resize : list (list Z) -> nat * nat -> list (list Z))
    (bbox : list qbox) (region_rows region_cols : list Q)
    (output_size : nat * nat) : list (list (list Q)) :=
  map (fun brc =>
         match brc with
         | (b, (rows, cols)) => _bbox_to_mask resize b (rows, cols) output_size
         end)
      (combine bbox (combine region_rows region_cols)).

(** A raster is all zero and has the shape [size]. *)
Definition zero_raster (size : nat * nat) (m : list (list Q)) : Prop :=
  length m = fst size /\
  Forall (fun row => length row = snd size /\ Forall (fun v => v == 0) row) m.

(** What the proofs use of the resampling: a zero image of positive size
    is resampled to the zero image of the requested size. *)
Definition resize_keeps_zero
    (resize : list (list Z) -> nat * nat -> list (list Z)) : Prop :=
  forall (n k r c : nat), (0 < n)%nat -> (0 < k)%nat ->
    resize (repeat (repeat 0%Z k) n) (r, c) = repeat (repeat 0%Z c) r.

(** Nearest-neighbour resampling, an instance of [resize]; like PIL's
    [Image.resize] it gives the image back when the size does not change. *)
Definition nearest_resize (img : list (list Z)) (size : nat * nat)
  : list (list Z) :=
  let h := length img in
  let w := length (hd [] img) in
  map (fun i =>
         map (fun j => nth (j * w / snd size) (nth (i * h / fst size) img []) 0%Z)
             (seq 0 (snd size)))
      (seq 0 (fst size)).

(** The box starts at or beyond the right or the bottom bound of a region
    of at least one row and one column. *)
Definition beyond_far_edge (yy : qbox) (region_size : Q * Q) : Prop :=
  1 <= fst region_size /\ 1 <= snd region_size /\
  (snd region_size <= qx yy \/ fst region_size <= qy yy).

End Rasterisation.

(** The value of [mask] in [_bbox_to_mask], the raster of the region
    before it is resampled. *)
Definition region_mask (yy : qbox) (region_size : Q * Q) : list (list Q) :=
  let neg_part := (py_max (Qopp (qx yy)) 0%Q, py_max (Qopp (qy yy)) 0%Q) in
  let core_shape :=
    (Z.max (round_half_even (Qminus (qw yy) (fst neg_part))) 1,
     Z.max (round_half_even (Qminus (qh yy) (snd neg_part))) 1) in
  let core := ones (snd core_shape) (fst core_shape) in
  let y1 := py_max (qy yy) 0%Q in
  let x1 := py_max (qx yy) 0%Q in
  let y2 := py_min (Qplus (qy yy) (qh yy)) (fst region_size) in
  let x2 := py_min (Qplus (qx yy) (qw yy)) (snd region_size) in
  let padded :=
    pad core (py_int x1) (py_int (Qminus (snd region_size) x2))
        (py_int y1) (py_int (Qminus (fst region_size) y2)) in
  map (firstn (Z.to_nat (Z.max (py_int (snd region_size)) 1)))
      (firstn (Z.to_nat (Z.max (py_int (fst region_size)) 1)) padded).

(* ================================================================== *)
(** ** Local intersection box *)

(** [T.stack([x, y, w, h], -1)] *)
Fixpoint stack4 (x y w h : list fval) : list box :=
  match x, y, w, h with
  | a :: x', b :: y', c :: w', d :: h' => mkBox a b c d :: stack4 x' y' w' h'
  | _, _, _, _ => []
  end.

(** [intersection_within(bbox, within)]; the local [area] of the source is
    computed and not used. *)
Definition intersection_within (bbox within : list box) : result (list box) :=
  check_bbox_validness bbox ;;
  check_bbox_validness within ;;
  let x1 := zip_with fmax (map box_x bbox) (map box_x within) in
  let y1 := zip_with fmax (map box_y bbox) (map box_y within) in
  let x2 := zip_with fmin (zip_with fadd (map box_x bbox) (map box_w bbox))
                          (zip_with fadd (map box_x within) (map box_w within)) in
  let y2 := zip_with fmin (zip_with fadd (map box_y bbox) (map box_h bbox))
                          (zip_with fadd (map box_y within) (map box_h within)) in
  let w := map (fun v => fmax v (Fin 0)) (zip_with fsub x2 x1) in
  let h := map (fun v => fmax v (Fin 0)) (zip_with fsub y2 y1) in
  let x := zip_with fsub x1 (map box_x within) in
  let y := zip_with fsub y1 (map box_y within) in
  let y := map (fun v => fmax v (Fin 0)) y in
  let x := map (fun v => fmax v (Fin 0)) x in
  Ok (stack4 x y w h).

(* ================================================================== *)
(** ** Box losses *)

(** A tensor [(batch_size, nobjs, ...)] is the list of its rows.  The
    elementwise geometry works on the flattened leading axes and its result
    has the leading shape of the operands again: [unflatten] cuts a flat
    list into rows of the given lengths. *)
Fixpoint unflatten {A : Type} (shape : list nat) (l : list A)
  : list (list A) :=
  match shape with
  | [] => []
  | n :: shape' => firstn n l :: unflatten shape' (skipn n l)
  end.

(** [iou_loss(a, b, presence)] *)
Definition iou_loss (a b : list (list box)) (presence : list (list fval))
  : result fval :=
  i <- iou (concat a) (concat b) ;;
  Ok (masked_nll (unflatten (map (@length box) a) i) presence None).

(** [intersection_loss(pred, target, presence)] *)
Definition intersection_loss (pred target : list (list box))
    (presence : list (list fval)) : result fval :=
  let t := concat target in
  let area := zip_with fmul (map box_w t) (map box_h t) in
  i <- intersection (concat pred) t ;;
  let i := zip_with fdiv i
             (zip_with fadd
                (zip_with fmul area (map (fun v => of_bool (fne v (Fin 0))) area))
                (map (fun v => of_bool (feq v (Fin 0))) area)) in
  Ok (masked_nll (unflatten (map (@length box) pred) i) presence None).



(* ================================================================== *)
(** ** Gradient diagnostics *)

Definition fabs (a : fval) : fval :=
  match a with
  | Fin r => Fin (Rabs r)
  | PInf | NInf => PInf
  | NaN => NaN
  end.

(** [(cond).long().sum() > 0] over the entries of a tensor. *)
Definition count_pos (cond : fval -> bool) (x : list fval) : bool :=
  Nat.ltb 0 (length (filter cond x)).

(** [anynan(x)] and [anybig(x)] *)
Definition anynan (x : list fval) : bool := count_pos (fun v => fne v v) x.

Definition anybig (x : list fval) : bool :=
  count_pos (fun v => fgt (fabs v) (Fin 100000)) x.

(** [check_grads(named_params)]: the returned flag and the parameter names
    printed, in order. *)
Definition check_grads (named_params : list (string * param))
  : bool * list string :=
  fold_left (fun st np =>
               match grad (snd np) with
               | Some g =>
                   if anynan g || anybig g
                   then (true, snd st ++ [fst np])
                   else st
               | None => st
               end) named_params (false, []).

(* ================================================================== *)
(** ** Convolution sizes and image normalisation *)


(** The channel statistics of [torch_normalize_image] and
    [torch_unnormalize_image]. *)
Definition image_mean : list fval :=
  [Fin (485 / 1000); Fin (456 / 1000); Fin (406 / 1000)].

Definition image_std : list fval :=
  [Fin (229 / 1000); Fin (224 / 1000); Fin (225 / 1000)].


Definition torch_unnormalize_image (x : list (list fval))
  : list (list fval) :=
  map (fun px =>
         map (fun v => fmin (fmax v (Fin 0)) (Fin 1))
             (zip_with fadd (zip_with fmul px image_std) image_mean)) x.

(* ================================================================== *)
(** ** Real-valued inputs *)

(** A tensor of real numbers, and finiteness of an entry. *)
Definition tensor_of (x : list (list R)) : list (list fval) :=
  map (map Fin) x.

Definition is_fin (v : fval) : Prop := exists r : R, v = Fin r.

Definition same_shape {A B : Type} (x : list (list A)) (y : list (list B))
  : Prop :=
  Forall2 (fun r s => length r = length s) x y.




(** A box with real coordinates and the tensor entry that holds it. *)
Record rbox : Type := mkRBox { rx : R; ry : R; rw : R; rh : R }.

Definition box_of (b : rbox) : box :=
  mkBox (Fin (rx b)) (Fin (ry b)) (Fin (rw b)) (Fin (rh b)).

Definition area (b : rbox) : R := rw b * rh b.

Definition valid (b : rbox) : Prop := 0 <= rw b /\ 0 <= rh b.

(** The intersection area of two real boxes, as [intersection] computes it
    on finite entries. *)
Definition inter_R (a b : rbox) : R :=
  Rmax (Rmin (rx a + rw a) (rx b + rw b) - Rmax (rx a) (rx b)) 0 *
  Rmax (Rmin (ry a + rh a) (ry b + rh b) - Rmax (ry a) (ry b)) 0.







(** The local intersection box and the IoU of two real boxes, as
    [intersection_within] and [iou] compute them on finite entries, and a
    box moved by [(dx, dy)]. *)
Definition within_R (b c : rbox) : rbox :=
  mkRBox (Rmax (Rmax (rx b) (rx c) - rx c) 0)
         (Rmax (Rmax (ry b) (ry c) - ry c) 0)
         (Rmax (Rmin (rx b + rw b) (rx c + rw c) - Rmax (rx b) (rx c)) 0)
         (Rmax (Rmin (ry b + rh b) (ry c + rh c) - Rmax (ry b) (ry c)) 0).

Definition iou_elem (a b : rbox) : fval :=
  fdiv (Fin (inter_R a b)) (Fin (area a + area b - inter_R a b)).




(** A finite entry within [lo, hi]. *)
Definition in_range (lo hi : R) (v : fval) : Prop :=
  exists r : R, v = Fin r /\ lo <= r <= hi.


Definition bad_entry (v : fval) : bool :=
  fne v v || fgt (fabs v) (Fin 100000).

Definition failing (np : string * param) : bool :=
  match grad (snd np) with
  | Some g => existsb bad_entry g
  | None => false
  end.



(* ================================================================== *)
(** * Properties *)

(** ** Comparisons on the reals *)

Lemma Rltb_lt (a b : R) : Rltb a b = true <-> a < b.
Proof. unfold Rltb; destruct (Rlt_dec a b); split; intros; try lra; discriminate. Qed.

Lemma Rltb_ge (a b : R) : Rltb a b = false <-> b <= a.
Proof. unfold Rltb; destruct (Rlt_dec a b); split; intros; try lra; discriminate. Qed.

Lemma Rleb_le (a b : R) : Rleb a b = true <-> a <= b.
Proof. unfold Rleb; destruct (Rle_dec a b); split; intros; try lra; discriminate. Qed.

Lemma Rleb_gt (a b : R) : Rleb a b = false <-> b < a.
Proof. unfold Rleb; destruct (Rle_dec a b); split; intros; try lra; discriminate. Qed.

Lemma Reqb_eq (a b : R) : Reqb a b = true <-> a = b.
Proof. unfold Reqb; destruct (Req_dec_T a b); split; intros; try lra; discriminate. Qed.


(** Decide every comparison of reals in the goal, closing the cases that
    contradict linear arithmetic. *)
Ltac cmp_cases :=
  unfold Rltb, Rleb, Reqb in *;
  repeat match goal with
         | |- context [Rlt_dec ?a ?b] => destruct (Rlt_dec a b); try lra
         | |- context [Rle_dec ?a ?b] => destruct (Rle_dec a b); try lra
         | |- context [Req_dec_T ?a ?b] => destruct (Req_dec_T a b); try lra
         | H : context [Rlt_dec ?a ?b] |- _ => destruct (Rlt_dec a b); try lra
         | H : context [Rle_dec ?a ?b] |- _ => destruct (Rle_dec a b); try lra
         | H : context [Req_dec_T ?a ?b] |- _ => destruct (Req_dec_T a b); try lra
         end.

(** The special values behave as in IEEE-754. *)
Example fdiv_zero_by_zero : fdiv (Fin 0) (Fin 0) = NaN.
Proof. unfold fdiv, signed. cmp_cases; reflexivity. Qed.

Example fdiv_one_by_zero : fdiv (Fin 1) (Fin 0) = PInf.
Proof. unfold fdiv, signed. cmp_cases; reflexivity. Qed.

Example fmul_inf_by_zero : fmul PInf (Fin 0) = NaN.
Proof. unfold fmul, signed. cmp_cases; reflexivity. Qed.

Example fmul_nan_by_zero : fmul NaN (Fin 0) = NaN.
Proof. reflexivity. Qed.

Example flog_zero : flog (Fin 0) = NInf.
Proof. unfold flog. cmp_cases; reflexivity. Qed.

Example flog_negative : flog (Fin (-1)) = NaN.
Proof. unfold flog. cmp_cases; reflexivity. Qed.

Example fge_nan_zero : fge NaN (Fin 0) = false.
Proof. reflexivity. Qed.

Example fne_nan_zero : fne NaN (Fin 0) = true.
Proof. reflexivity. Qed.

Lemma eps_pos : 0 < eps.
Proof. unfold eps; lra. Qed.

(* ================================================================== *)
(** ** [nll] *)

Lemma nll_arg_real (x : R) :
  nll_arg (Fin x) = Fin (if Rltb x eps then x + eps else x).
Proof.
  unfold nll_arg, nll_dx, fsub, fneg, fadd, flt, of_bool, fmul.
  cmp_cases; f_equal; lra.
Qed.

Lemma nll_arg_minus_one : nll_arg (Fin (-1)) = Fin (-1 + eps).
Proof. rewrite nll_arg_real. pose proof eps_pos. cmp_cases. reflexivity. Qed.

Lemma nll_minus_one : nll (Fin (-1)) = NaN.
Proof.
  unfold nll. rewrite nll_arg_minus_one. unfold eps, flog, fneg.
  cmp_cases; reflexivity.
Qed.

(** C1, as stated, fails: at the entry [-1] the conditional add hands
    [-1 + eps], a negative number, to the logarithm, and the loss is [nan]. *)
Lemma nll_arg_minus_one_not_positive :
  nll_arg (Fin (-1)) = Fin (-1 + eps) /\
  -1 + eps < 0 /\
  flt (Fin 0) (nll_arg (Fin (-1))) = false /\
  nll (Fin (-1)) = NaN.
Proof.
  rewrite nll_arg_minus_one, nll_minus_one. unfold eps, flt.
  repeat split; try lra; cmp_cases; reflexivity.
Qed.

(** C1 (amended): for every real entry [x], [nll] adds [eps] to [x] exactly
    when [x < eps] and hands every other entry to the logarithm untouched;
    the argument of the logarithm is strictly positive exactly when
    [- eps < x], so for every entry [x >= 0], zero included. *)
Theorem nll_conditional_eps (x : R) :
  (x < eps -> nll_arg (Fin x) = Fin (x + eps)) /\
  (eps <= x -> nll_arg (Fin x) = Fin x) /\
  (flt (Fin 0) (nll_arg (Fin x)) = true <-> - eps < x) /\
  (0 <= x -> flt (Fin 0) (nll_arg (Fin x)) = true).
Proof.
  pose proof eps_pos as He.
  rewrite nll_arg_real.
  repeat split; unfold flt; intros; cmp_cases;
    try reflexivity; try discriminate; try lra; f_equal; lra.
Qed.

Lemma nll_conditional_eps_witness :
  0 <= 0 /\ nll_arg (Fin 0) = Fin (0 + eps) /\
  flt (Fin 0) (nll_arg (Fin 0)) = true.
Proof.
  pose proof eps_pos as He.
  destruct (nll_conditional_eps 0) as (Hlt & _ & _ & Hpos).
  split; [lra | split; [apply Hlt; lra | apply Hpos; lra]].
Defined.

(* ================================================================== *)
(** ** Lists *)


Lemma zip_with_length {A B C : Type} (f : A -> B -> C) (l : list A) (m : list B) :
  length l = length m -> length (zip_with f l m) = length l.
Proof.
  revert m. induction l as [|a l IH]; intros [|b m] H; simpl in *;
    try reflexivity; try discriminate.
  f_equal. apply IH. lia.
Qed.

Lemma nth_error_zip_with {A B C : Type} (f : A -> B -> C) (l : list A)
    (m : list B) (i : nat) :
  nth_error (zip_with f l m) i =
  match nth_error l i, nth_error m i with
  | Some a, Some b => Some (f a b)
  | _, _ => None
  end.
Proof.
  revert m i. induction l as [|a l IH]; intros [|b m] [|i]; simpl;
    try reflexivity.
  - destruct (nth_error l i); reflexivity.
  - apply IH.
Qed.

Lemma forallb_map_eq {A B : Type} (f : A -> B) (p : B -> bool) (l : list A) :
  forallb p (map f l) = forallb (fun v => p (f v)) l.
Proof. induction l as [|a l IH]; simpl; [reflexivity|rewrite IH; reflexivity]. Qed.

(* ================================================================== *)
(** ** Arithmetic of tensor entries *)


Lemma fmul_comm (a b : fval) : fmul a b = fmul b a.
Proof. destruct a, b; simpl; try reflexivity. f_equal; lra. Qed.



(* ================================================================== *)
(** ** Box geometry *)

Lemma check_bbox_validness_cases (b : list box) :
  check_bbox_validness b = Ok tt \/
  check_bbox_validness b = Err AssertionError.
Proof.
  unfold check_bbox_validness, assert, bind.
  destruct (forallb _ b); [destruct (forallb _ b)|]; auto.
Qed.

Lemma check_bbox_validness_ok (b : list rbox) :
  check_bbox_validness (map box_of b) = Ok tt <-> Forall valid b.
Proof.
  unfold check_bbox_validness, assert, bind.
  rewrite !forallb_map_eq.
  destruct (forallb (fun v => fge (box_w (box_of v)) (Fin 0)) b) eqn:Ew;
    [destruct (forallb (fun v => fge (box_h (box_of v)) (Fin 0)) b) eqn:Eh|].
  - split; [intros _|reflexivity].
    rewrite forallb_forall in Ew, Eh. apply Forall_forall. intros v Hv.
    specialize (Ew v Hv). specialize (Eh v Hv).
    unfold fge, fle in Ew, Eh. simpl in Ew, Eh.
    apply Rleb_le in Ew. apply Rleb_le in Eh. split; assumption.
  - split; [discriminate|intros HF].
    assert (forallb (fun v => fge (box_h (box_of v)) (Fin 0)) b = true) as E.
    { apply forallb_forall. intros v Hv. rewrite Forall_forall in HF.
      destruct (HF v Hv) as [_ Hh]. unfold fge, fle; simpl.
      apply Rleb_le; assumption. }
    congruence.
  - split; [discriminate|intros HF].
    assert (forallb (fun v => fge (box_w (box_of v)) (Fin 0)) b = true) as E.
    { apply forallb_forall. intros v Hv. rewrite Forall_forall in HF.
      destruct (HF v Hv) as [Hw _]. unfold fge, fle; simpl.
      apply Rleb_le; assumption. }
    congruence.
Qed.

Lemma intersection_area_real (a b : list rbox) :
  intersection_area (map box_of a) (map box_of b) =
  map Fin (zip_with inter_R a b).
Proof.
  unfold intersection_area. revert b.
  induction a as [|u a IH]; intros [|v b]; simpl; try reflexivity.
  rewrite IH. reflexivity.
Qed.

Lemma inter_R_bounds (a b : rbox) :
  valid a -> valid b ->
  0 <= inter_R a b /\ inter_R a b <= Rmin (area a) (area b).
Proof.
  unfold valid, inter_R, area. destruct a as [ax ay aw ah], b as [bx by' bw bh].
  simpl. intros [Haw Hah] [Hbw Hbh].
  set (w := Rmax (Rmin (ax + aw) (bx + bw) - Rmax ax bx) 0).
  set (h := Rmax (Rmin (ay + ah) (by' + bh) - Rmax ay by') 0).
  assert (Hw : 0 <= w /\ w <= aw /\ w <= bw).
  { unfold w, Rmax, Rmin. repeat destruct (Rle_dec _ _); lra. }
  assert (Hh : 0 <= h /\ h <= ah /\ h <= bh).
  { unfold h, Rmax, Rmin. repeat destruct (Rle_dec _ _); lra. }
  split; [nra|]. apply Rmin_glb; nra.
Qed.


Lemma intersection_real (a b : list rbox) :
  Forall valid a -> Forall valid b ->
  intersection (map box_of a) (map box_of b) =
  Ok (map Fin (zip_with inter_R a b)).
Proof.
  intros Ha Hb. unfold intersection.
  apply check_bbox_validness_ok in Ha, Hb. rewrite Ha, Hb. simpl.
  rewrite intersection_area_real. reflexivity.
Qed.







(** C6: for every box [(x, y, w, h)], [clamp_bbox] returns
    [(x, y, max(w, 0), max(h, 0))], entry by entry of the box tensor: [x]
    and [y] are unchanged, width and height are clamped at zero; so
    [(x, y, -2, 3)] becomes [(x, y, 0, 3)]. *)
Theorem clamp_bbox_value :
  (forall b : list rbox,
      clamp_bbox (map box_of b) =
      map (fun v => box_of (mkRBox (rx v) (ry v) (Rmax (rw v) 0) (Rmax (rh v) 0)))
          b) /\
  (forall x y : R,
      clamp_bbox [box_of (mkRBox x y (-2) 3)] = [box_of (mkRBox x y 0 3)]).
Proof.
  assert (H : forall w : R, fsub (Fin w) (fmin (Fin w) (Fin 0)) = Fin (Rmax w 0)).
  { intros w. unfold fsub, fmin, fneg, fadd, Rmax, Rmin.
    repeat destruct (Rle_dec _ _); f_equal; lra. }
  split.
  - intros b. unfold clamp_bbox. rewrite map_map. apply map_ext. intros v.
    unfold box_of; cbn [box_x box_y box_w box_h rx ry rw rh].
    rewrite !H. reflexivity.
  - intros x y. unfold clamp_bbox, box_of, map.
    cbn [box_x box_y box_w box_h rx ry rw rh]. rewrite !H.
    unfold Rmax. repeat destruct (Rle_dec _ _); try lra. reflexivity.
Qed.

Lemma check_bbox_validness_err (b : list rbox) :
  check_bbox_validness (map box_of b) = Err AssertionError <->
  Exists (fun v => rw v < 0 \/ rh v < 0) b.
Proof.
  split.
  - intros HE.
    assert (Hdec : Forall valid b \/ Exists (fun v => rw v < 0 \/ rh v < 0) b).
    { clear HE. induction b as [|v b [IH|IH]]; [left; constructor| |].
      - destruct (Rle_dec 0 (rw v)), (Rle_dec 0 (rh v)).
        + left. constructor; [split|]; assumption.
        + right. apply Exists_cons_hd. lra.
        + right. apply Exists_cons_hd. lra.
        + right. apply Exists_cons_hd. lra.
      - right. apply Exists_cons_tl. assumption. }
    destruct Hdec as [Hv|Hx]; [|assumption].
    apply check_bbox_validness_ok in Hv. congruence.
  - intros HE. destruct (check_bbox_validness_cases (map box_of b)) as [H|H];
      [|assumption].
    apply check_bbox_validness_ok in H. apply Exists_exists in HE.
    destruct HE as (v & Hin & Hneg). rewrite Forall_forall in H.
    destruct (H v Hin). lra.
Qed.

(** C7: [check_bbox_validness] fails with an assertion error exactly when
    some box of the tensor has a negative width or a negative height (it
    fails for [(0, 0, -1, 2)] and passes for [(0, 0, 0, 0)]), and
    [intersection] runs this check on both arguments before any geometry:
    it fails with that error as soon as one of them fails the check and
    returns the areas otherwise. *)
Theorem check_bbox_validness_spec :
  (forall b : list rbox,
      (check_bbox_validness (map box_of b) = Err AssertionError <->
       Exists (fun v => rw v < 0 \/ rh v < 0) b) /\
      (check_bbox_validness (map box_of b) = Ok tt <->
       ~ Exists (fun v => rw v < 0 \/ rh v < 0) b)) /\
  check_bbox_validness [box_of (mkRBox 0 0 (-1) 2)] = Err AssertionError /\
  check_bbox_validness [box_of (mkRBox 0 0 0 0)] = Ok tt /\
  (forall a b : list box,
      (check_bbox_validness a = Err AssertionError ->
       intersection a b = Err AssertionError) /\
      (check_bbox_validness b = Err AssertionError ->
       intersection a b = Err AssertionError) /\
      (check_bbox_validness a = Ok tt -> check_bbox_validness b = Ok tt ->
       intersection a b = Ok (intersection_area a b))).
Proof.
  split; [|split; [|split]].
  - intros b. split; [apply check_bbox_validness_err|].
    rewrite <- check_bbox_validness_err.
    destruct (check_bbox_validness_cases (map box_of b)) as [H|H]; rewrite H;
      split; intros; try reflexivity; try discriminate; try congruence;
      exfalso; auto.
  - apply (check_bbox_validness_err [mkRBox 0 0 (-1) 2]).
    constructor. simpl. lra.
  - apply (check_bbox_validness_ok [mkRBox 0 0 0 0]).
    constructor; [unfold valid; simpl; lra | constructor].
  - intros a b. unfold intersection. repeat split.
    + intros ->. reflexivity.
    + intros ->.
      destruct (check_bbox_validness_cases a) as [-> | ->]; reflexivity.
    + intros -> ->. reflexivity.
Qed.

Lemma check_bbox_validness_spec_witness :
  intersection [box_of (mkRBox 0 0 (-1) 2)] [box_of (mkRBox 0 0 0 0)]
  = Err AssertionError /\
  intersection [box_of (mkRBox 0 0 0 0)] [box_of (mkRBox 0 0 0 0)]
  = Ok (intersection_area [box_of (mkRBox 0 0 0 0)] [box_of (mkRBox 0 0 0 0)]).
Proof.
  destruct check_bbox_validness_spec as (_ & Hbad & Hgood & Hint).
  split.
  - destruct (Hint [box_of (mkRBox 0 0 (-1) 2)] [box_of (mkRBox 0 0 0 0)])
      as (Ha & _ & _).
    exact (Ha Hbad).
  - destruct (Hint [box_of (mkRBox 0 0 0 0)] [box_of (mkRBox 0 0 0 0)])
      as (_ & _ & Hok).
    exact (Hok Hgood Hgood).
Defined.

(* ================================================================== *)
(** ** Sums of finite entries *)






(* ================================================================== *)
(** ** [clip_grads] *)











(* ================================================================== *)
(** ** [masked_nll] *)



Lemma fmul_fin_zero (a : fval) : is_fin a -> fmul a (Fin 0) = Fin 0.
Proof. intros [r ->]. simpl. f_equal; lra. Qed.


Lemma nll_ge_eps (v : R) : eps <= v -> nll (Fin v) = Fin (- ln v).
Proof.
  intros Hv. unfold nll. rewrite nll_arg_real. pose proof eps_pos.
  unfold flog, fneg. cmp_cases; reflexivity.
Qed.






(** [masked_rows] row by row. *)
Lemma masked_rows_by_row (x presence : list (list fval))
    (weight : option (list (list fval))) :
  masked_rows x presence weight =
  zip_with (fun xp w => row_nll (fst xp) (snd xp) w)
           (combine x presence) (row_weights weight (length x)).
Proof.
  unfold masked_rows, masked_terms, present_count.
  destruct weight as [w|]; simpl.
  - revert presence w.
    induction x as [|xs x IH]; intros [|ps presence] [|ws w]; simpl;
      try reflexivity.
    rewrite IH. reflexivity.
  - revert presence.
    induction x as [|xs x IH]; intros [|ps presence]; simpl; try reflexivity.
    rewrite IH. reflexivity.
Qed.





















(* ------------------------------------------------------------------ *)
(** *** Finite results *)











(* ------------------------------------------------------------------ *)
(** *** Independence of absent entries *)








(* ================================================================== *)
(** ** Box rasterisation *)

Section RasterisationFacts.
Local Open Scope Q_scope.

Lemma py_max_l (a b : Q) : a <= py_max a b.
Proof.
  unfold py_max. destruct (Qcompare a b) eqn:E; try apply Qle_refl.
  apply Qlt_le_weak, Qlt_alt, E.
Qed.

Lemma py_max_r (a b : Q) : b <= py_max a b.
Proof.
  unfold py_max. destruct (Qcompare a b) eqn:E; try apply Qle_refl.
  - apply Qeq_alt in E. rewrite E. apply Qle_refl.
  - apply Qlt_le_weak, Qgt_alt, E.
Qed.

Lemma py_max_pos (a : Q) : 0 < a -> py_max a 0 = a.
Proof.
  intros H. unfold py_max. destruct (Qcompare a 0) eqn:E; try reflexivity.
  apply Qlt_alt in E. exfalso. apply (Qlt_irrefl a).
  eapply Qlt_trans; eassumption.
Qed.

Lemma py_min_r (a b : Q) : py_min a b <= b.
Proof.
  unfold py_min. destruct (Qcompare b a) eqn:E; try apply Qle_refl.
  - apply Qeq_alt in E. rewrite E. apply Qle_refl.
  - apply Qlt_le_weak, Qgt_alt, E.
Qed.

Lemma py_int_floor (q : Q) : 0 <= q -> py_int q = Qfloor q.
Proof.
  destruct q as [n d]. unfold Qle, py_int, Qfloor. simpl. intros H.
  apply Z.quot_div_nonneg; lia.
Qed.

Lemma py_int_nonneg (q : Q) : 0 <= q -> (0 <= py_int q)%Z.
Proof.
  intros H. rewrite py_int_floor by assumption.
  change 0%Z with (Qfloor 0). apply Qfloor_resp_le. assumption.
Qed.

Lemma py_int_mono (a b : Q) : 0 <= a -> a <= b -> (py_int a <= py_int b)%Z.
Proof.
  intros Ha Hab. rewrite !py_int_floor; [apply Qfloor_resp_le; assumption| |];
    [eapply Qle_trans; eassumption | assumption].
Qed.

(** Lists of repeated entries *)

Lemma firstn_repeat_app {A : Type} (z : A) (m l : nat) (rest : list A) :
  (m <= l)%nat -> firstn m (repeat z l ++ rest) = repeat z m.
Proof.
  revert l. induction m as [|m IH]; intros [|l] H; simpl; try reflexivity;
    try lia.
  f_equal. apply IH. lia.
Qed.

Lemma firstn_repeat_min {A : Type} (z : A) (m l : nat) :
  firstn m (repeat z l) = repeat z (Nat.min m l).
Proof.
  revert l. induction m as [|m IH]; intros [|l]; simpl; try reflexivity.
  f_equal. apply IH.
Qed.

Lemma map_const_repeat {A B : Type} (f : A -> B) (c : B) (l : list A) :
  Forall (fun a => f a = c) l -> map f l = repeat c (length l).
Proof. induction 1 as [|a l Ha _ IH]; simpl; [reflexivity|]. rewrite Ha, IH. reflexivity. Qed.

Lemma Forall_firstn {A : Type} (P : A -> Prop) (n : nat) (l : list A) :
  Forall P l -> Forall P (firstn n l).
Proof.
  intros H. revert n. induction H as [|a l Ha _ IH]; intros [|n]; simpl;
    constructor; auto.
Qed.

Lemma map_repeat {A B : Type} (f : A -> B) (a : A) (n : nat) :
  map f (repeat a n) = repeat (f a) n.
Proof. induction n as [|n IH]; simpl; [reflexivity|]. rewrite IH. reflexivity. Qed.

Lemma pad_axis_nonneg {A : Type} (z : A) (before after : Z) (l : list A) :
  (0 <= before)%Z -> (0 <= after)%Z ->
  pad_axis z before after l =
  repeat z (Z.to_nat before) ++ l ++ repeat z (Z.to_nat after).
Proof.
  intros Hb Ha. unfold pad_axis.
  rewrite (proj2 (Z.leb_le 0 before) Hb), (proj2 (Z.leb_le 0 after) Ha).
  rewrite <- app_assoc. reflexivity.
Qed.

Lemma Forall_repeat {A : Type} (P : A -> Prop) (a : A) (n : nat) :
  P a -> Forall P (repeat a n).
Proof. intros H. induction n; simpl; constructor; assumption. Qed.

(** The padded raster: [T] zero rows, [CH] rows holding the core, [B] zero
    rows. *)
Lemma pad_ones (ch cw l r t b : Z) :
  (1 <= ch)%Z -> (0 <= l)%Z -> (0 <= r)%Z -> (0 <= t)%Z -> (0 <= b)%Z ->
  let crow := repeat 0 (Z.to_nat l) ++ repeat 1 (Z.to_nat cw)
                     ++ repeat 0 (Z.to_nat r) in
  pad (ones ch cw) l r t b =
  repeat (repeat 0 (length crow)) (Z.to_nat t)
    ++ repeat crow (Z.to_nat ch)
    ++ repeat (repeat 0 (length crow)) (Z.to_nat b).
Proof.
  intros Hch Hl Hr Ht Hb crow. unfold pad, ones.
  rewrite map_repeat, (pad_axis_nonneg 0 l r) by assumption. fold crow.
  rewrite pad_axis_nonneg by assumption.
  destruct (Z.to_nat ch) as [|k] eqn:E; [lia|]. reflexivity.
Qed.

Lemma bytescale_zero (n k : nat) :
  bytescale (repeat (repeat 0 k) n) = repeat (repeat 0%Z k) n.
Proof.
  assert (Hz : Forall (fun v => v = 0) (concat (repeat (repeat 0 k) n))).
  { induction n as [|n IH]; simpl; [constructor|].
    apply Forall_app. split; [apply Forall_repeat; reflexivity | exact IH]. }
  assert (Hfold : forall f : Q -> Q -> Q, f 0 0 = 0 ->
             raster_fold f (repeat (repeat 0 k) n) = 0).
  { intros f Hf. unfold raster_fold.
    destruct (concat (repeat (repeat 0 k) n)) as [|v r]; [reflexivity|].
    inversion Hz as [|? ? Hv Hr]; subst. clear Hz.
    induction Hr as [|u r Hu _ IH]; simpl; [reflexivity|].
    rewrite Hu, Hf. exact IH. }
  unfold bytescale.
  rewrite (Hfold py_min eq_refl), (Hfold py_max eq_refl).
  rewrite map_repeat, map_repeat. reflexivity.
Qed.

Section Resampling.

Variable resize : list (list Z) -> nat * nat -> list (list Z).
Hypothesis resize_zero : resize_keeps_zero resize.

Lemma zero_mask_resized (n k : nat) (output_size : nat * nat) :
  (0 < n)%nat -> (0 < k)%nat ->
  zero_raster output_size
    (map (map (fun v => inject_Z v / 255))
         (imresize resize (repeat (repeat 0 k) n) output_size)).
Proof.
  intros Hn Hk. destruct output_size as [r c]. unfold imresize.
  rewrite bytescale_zero, (resize_zero n k r c Hn Hk).
  rewrite map_repeat, map_repeat. unfold zero_raster. simpl.
  split; [apply repeat_length|].
  apply Forall_repeat. split; [apply repeat_length|].
  apply Forall_repeat. reflexivity.
Qed.

Lemma bbox_to_mask_beyond_far_edge (yy : qbox) (region_size : Q * Q)
    (output_size : nat * nat) :
  beyond_far_edge yy region_size ->
  zero_raster output_size (_bbox_to_mask resize yy region_size output_size).
Proof.
  destruct region_size as [R0 R1]. unfold beyond_far_edge. simpl.
  intros (HR0 & HR1 & Hout). unfold _bbox_to_mask. cbv zeta. simpl fst. simpl snd.
  set (cw := Z.max (round_half_even (qw yy - py_max (- qx yy) 0)) 1).
  set (ch := Z.max (round_half_even (qh yy - py_max (- qy yy) 0)) 1).
  set (L := py_int (py_max (qx yy) 0)).
  set (T := py_int (py_max (qy yy) 0)).
  set (Rp := py_int (R1 - py_min (qx yy + qw yy) R1)).
  set (B := py_int (R0 - py_min (qy yy + qh yy) R0)).
  set (n := Z.to_nat (Z.max (py_int R0) 1)).
  set (m := Z.to_nat (Z.max (py_int R1) 1)).
  assert (HL : (0 <= L)%Z) by (apply py_int_nonneg, py_max_r).
  assert (HT : (0 <= T)%Z) by (apply py_int_nonneg, py_max_r).
  assert (HRp : (0 <= Rp)%Z).
  { apply py_int_nonneg. pose proof (py_min_r (qx yy + qw yy) R1). lra. }
  assert (HB : (0 <= B)%Z).
  { apply py_int_nonneg. pose proof (py_min_r (qy yy + qh yy) R0). lra. }
  assert (Hch : (1 <= ch)%Z) by (unfold ch; lia).
  assert (Hcw : (1 <= cw)%Z) by (unfold cw; lia).
  assert (Hn : (0 < n)%nat) by (unfold n; lia).
  assert (Hm : (0 < m)%nat) by (unfold m; lia).
  rewrite (pad_ones ch cw L Rp T B Hch HL HRp HT HB). cbv zeta.
  set (crow := repeat 0 (Z.to_nat L) ++ repeat 1 (Z.to_nat cw)
                      ++ repeat 0 (Z.to_nat Rp)).
  assert (Hlen : length crow = (Z.to_nat L + (Z.to_nat cw + Z.to_nat Rp))%nat).
  { unfold crow. rewrite !length_app, !repeat_length. reflexivity. }
  assert (Hone : (1 <= py_int 1)%Z) by (vm_compute; discriminate).
  destruct Hout as [Hx | Hy].
  - (* the box starts at or beyond the right bound *)
    assert (HmL : (m <= Z.to_nat L)%nat).
    { unfold m, L. rewrite py_max_pos by lra.
      pose proof (py_int_mono R1 (qx yy) ltac:(lra) Hx).
      pose proof (py_int_mono 1 (qx yy) ltac:(lra) ltac:(lra)). lia. }
    set (padded := repeat (repeat 0 (length crow)) (Z.to_nat T)
                     ++ repeat crow (Z.to_nat ch)
                     ++ repeat (repeat 0 (length crow)) (Z.to_nat B)).
    assert (Hrows : Forall (fun row => firstn m row = repeat 0 m) padded).
    { assert (Hz : firstn m (repeat 0 (length crow)) = repeat 0 m).
      { rewrite firstn_repeat_min. f_equal. lia. }
      unfold padded. repeat (apply Forall_app; split);
        apply Forall_repeat; try exact Hz.
      unfold crow. apply firstn_repeat_app. exact HmL. }
    rewrite (map_const_repeat _ _ _ (Forall_firstn _ n _ Hrows)).
    apply zero_mask_resized; [|exact Hm].
    rewrite length_firstn. unfold padded.
    rewrite !length_app, !repeat_length. lia.
  - (* the box starts at or beyond the bottom bound *)
    assert (HnT : (n <= Z.to_nat T)%nat).
    { unfold n, T. rewrite py_max_pos by lra.
      pose proof (py_int_mono R0 (qy yy) ltac:(lra) Hy).
      pose proof (py_int_mono 1 (qy yy) ltac:(lra) ltac:(lra)). lia. }
    rewrite (firstn_repeat_app _ n (Z.to_nat T) _ HnT).
    rewrite map_repeat, firstn_repeat_min.
    apply zero_mask_resized; [exact Hn|]. lia.
Qed.

End Resampling.

Lemma nth_zero_raster (n k i j : nat) :
  nth j (nth i (repeat (repeat 0%Z k) n) []) 0%Z = 0%Z.
Proof.
  assert (Hrow : nth i (repeat (repeat 0%Z k) n) [] = repeat 0%Z k \/
                 nth i (repeat (repeat 0%Z k) n) [] = []).
  { revert i. induction n as [|n IH]; intros [|i]; simpl; auto. }
  destruct Hrow as [-> | ->]; [|destruct j; reflexivity].
  revert j. induction k as [|k IH]; intros [|j]; simpl; auto.
Qed.

Lemma nearest_resize_keeps_zero : resize_keeps_zero nearest_resize.
Proof.
  intros n k r c _ _. unfold nearest_resize. cbn [fst snd].
  rewrite (map_const_repeat _ (repeat 0%Z c) (seq 0 r)), length_seq;
    [reflexivity|].
  apply Forall_forall. intros i _.
  rewrite (map_const_repeat _ 0%Z (seq 0 c)), length_seq; [reflexivity|].
  apply Forall_forall. intros j _. apply nth_zero_raster.
Qed.

(** C9, as stated, fails: the box [(-5, 0, 2, 3)] lies left of the region
    [[0, 10) x [0, 10)], but its core is clamped to one column and padded
    from column 0, so the raster has ones in its first column.  A region
    of zero columns is sliced as one column, so the box [(0, 0, 2, 2)],
    outside of it, leaves ones as well. *)
Lemma bbox_to_mask_left_of_region_not_zero :
  qx (mkQBox (-5) 0 2 3) + qw (mkQBox (-5) 0 2 3) <= 0 /\
  ~ Forall (zero_raster (10%nat, 10%nat))
      (bbox_to_mask nearest_resize [mkQBox (-5) 0 2 3] [10] [10]
                    (10%nat, 10%nat)) /\
  ~ Forall (zero_raster (10%nat, 1%nat))
      (bbox_to_mask nearest_resize [mkQBox 0 0 2 2] [10] [0]
                    (10%nat, 1%nat)).
Proof.
  split; [vm_compute; discriminate|].
  split; intros H; inversion H as [|m ms [_ Hm] _]; subst; clear H;
    vm_compute in Hm;
    inversion Hm as [|row rows [_ Hrow] _]; subst; clear Hm;
    inversion Hrow as [|v vs Hv _]; subst; discriminate Hv.
Qed.

(** C9 (amended): for a region of at least one row and one column, every
    box that starts at or beyond the right bound ([x >= regionCols]) or the
    bottom bound ([y >= regionRows]) is rasterised to an all-zero raster of
    shape [output_size], given a resampling that maps a zero image to the
    zero image of the requested size. *)
Theorem bbox_to_mask_zero_beyond_far_edge
    (resize : list (list Z) -> nat * nat -> list (list Z))
    (bbox : list qbox) (region_rows region_cols : list Q)
    (output_size : nat * nat) :
  resize_keeps_zero resize ->
  Forall (fun brc => beyond_far_edge (fst brc) (snd brc))
         (combine bbox (combine region_rows region_cols)) ->
  Forall (zero_raster output_size)
         (bbox_to_mask resize bbox region_rows region_cols output_size).
Proof.
  intros Hres H. unfold bbox_to_mask.
  induction H as [|[b [rows cols]] l Hb _ IH]; simpl; constructor;
    [|exact IH].
  apply bbox_to_mask_beyond_far_edge; assumption.
Qed.

Lemma bbox_to_mask_zero_beyond_far_edge_witness :
  Forall (zero_raster (4%nat, 4%nat))
         (bbox_to_mask nearest_resize [mkQBox 12 0 2 3; mkQBox 1 (21 # 2) 2 3]
                       [10; 10] [10; 10] (4%nat, 4%nat)).
Proof.
  apply bbox_to_mask_zero_beyond_far_edge.
  - exact nearest_resize_keeps_zero.
  - repeat constructor; simpl; unfold Qle; simpl; lia.
Defined.

End RasterisationFacts.

(* ================================================================== *)
(** * Further properties *)

(** ** The guarded negative log *)

Lemma ln_mono (x y : R) : 0 < x -> x <= y -> ln x <= ln y.
Proof.
  intros Hx [Hlt | ->]; [|lra].
  left. apply ln_increasing; assumption.
Qed.




(** X2: on entries at or above [eps] the loss is [- ln x] and does not
    increase when the entry grows. *)
Theorem nll_antitone_above_eps (x y : R) :
  eps <= x -> x <= y ->
  nll (Fin x) = Fin (- ln x) /\ nll (Fin y) = Fin (- ln y) /\
  - ln y <= - ln x.
Proof.
  intros Hx Hxy. pose proof eps_pos as He.
  split; [apply nll_ge_eps; lra|]. split; [apply nll_ge_eps; lra|].
  pose proof (ln_mono x y ltac:(lra) Hxy). lra.
Qed.

Lemma nll_antitone_above_eps_witness :
  nll (Fin (1 / 2)) = Fin (- ln (1 / 2)) /\ nll (Fin 1) = Fin (- ln 1) /\
  - ln 1 <= - ln (1 / 2).
Proof. apply nll_antitone_above_eps; unfold eps; lra. Defined.



(* ================================================================== *)
(** ** More box geometry *)



Lemma Forall2_valid_l {P : rbox -> rbox -> Prop} (a b : list rbox) :
  (forall u v, P u v -> valid u) -> Forall2 P a b -> Forall valid a.
Proof. intros HP. induction 1; constructor; eauto. Qed.

Lemma Forall2_valid_r {P : rbox -> rbox -> Prop} (a b : list rbox) :
  (forall u v, P u v -> valid v) -> Forall2 P a b -> Forall valid b.
Proof. intros HP. induction 1; constructor; eauto. Qed.

Lemma iou_real (a b : list rbox) :
  Forall valid a -> Forall valid b ->
  iou (map box_of a) (map box_of b) = Ok (zip_with iou_elem a b).
Proof.
  intros Ha Hb. unfold iou. rewrite (intersection_real a b Ha Hb). simpl.
  f_equal. clear Ha Hb. revert b.
  induction a as [|u a IH]; intros [|v b]; simpl; try reflexivity.
  rewrite IH. reflexivity.
Qed.







(** X6: [iou] has no guard for an empty union: where both boxes are valid
    and have area 0, the ratio is 0 / 0, [nan]. *)
Theorem iou_zero_areas_nan (a b : list rbox) :
  Forall2 (fun u v => valid u /\ valid v /\ area u = 0 /\ area v = 0) a b ->
  iou (map box_of a) (map box_of b) = Ok (map (fun _ => NaN) a).
Proof.
  intros H.
  assert (Ha : Forall valid a)
    by (apply (Forall2_valid_l a b) in H; [assumption | tauto]).
  assert (Hb : Forall valid b)
    by (apply (Forall2_valid_r a b) in H; [assumption | tauto]).
  rewrite (iou_real a b Ha Hb). f_equal. clear Ha Hb.
  induction H as [|u v a b (Hu & Hv & Hau & Hav) _ IH]; simpl; [reflexivity|].
  rewrite IH. f_equal.
  destruct (inter_R_bounds u v Hu Hv) as [H0 Hmin].
  pose proof (Rmin_l (area u) (area v)).
  assert (Hi : inter_R u v = 0) by lra.
  unfold iou_elem. rewrite Hi, Hau, Hav. unfold fdiv, signed.
  rewrite (proj2 (Reqb_eq _ 0)) by lra.
  rewrite (proj2 (Rltb_ge 0 0)) by lra. reflexivity.
Qed.

Lemma iou_zero_areas_nan_witness :
  iou (map box_of [mkRBox 0 0 0 0]) (map box_of [mkRBox 3 4 0 5]) = Ok [NaN].
Proof.
  apply (iou_zero_areas_nan [mkRBox 0 0 0 0] [mkRBox 3 4 0 5]).
  repeat constructor; unfold valid, area; simpl; lra.
Defined.




Lemma intersection_within_real (b c : list rbox) :
  Forall valid b -> Forall valid c ->
  intersection_within (map box_of b) (map box_of c) =
  Ok (map box_of (zip_with within_R b c)).
Proof.
  intros Hb Hc. unfold intersection_within.
  apply check_bbox_validness_ok in Hb, Hc. rewrite Hb, Hc. simpl.
  f_equal. clear Hb Hc. revert c.
  induction b as [|u b IH]; intros [|v c]; simpl; try reflexivity.
  rewrite IH. reflexivity.
Qed.






(** X10: [intersection_within] fails with the assertion error exactly
    when a box of either argument has a negative width or height, and then
    [intersection] fails as well; otherwise it returns the local boxes. *)
Theorem intersection_within_fails_on_invalid_box (b c : list rbox) :
  (intersection_within (map box_of b) (map box_of c) = Err AssertionError <->
   Exists (fun v => rw v < 0 \/ rh v < 0) b \/
   Exists (fun v => rw v < 0 \/ rh v < 0) c) /\
  (intersection_within (map box_of b) (map box_of c) = Err AssertionError ->
   intersection (map box_of b) (map box_of c) = Err AssertionError) /\
  (~ (Exists (fun v => rw v < 0 \/ rh v < 0) b \/
      Exists (fun v => rw v < 0 \/ rh v < 0) c) ->
   intersection_within (map box_of b) (map box_of c)
   = Ok (map box_of (zip_with within_R b c))).
Proof.
  rewrite <- !check_bbox_validness_err.
  split; [|split].
  - unfold intersection_within.
    destruct (check_bbox_validness_cases (map box_of b)) as [-> | ->],
             (check_bbox_validness_cases (map box_of c)) as [-> | ->]; simpl;
      split; intros H; try reflexivity; try discriminate; auto;
      destruct H; discriminate.
  - unfold intersection_within, intersection.
    destruct (check_bbox_validness_cases (map box_of b)) as [-> | ->],
             (check_bbox_validness_cases (map box_of c)) as [-> | ->]; simpl;
      intros H; try reflexivity; discriminate.
  - intros Hno. apply intersection_within_real; apply check_bbox_validness_ok.
    + destruct (check_bbox_validness_cases (map box_of b)) as [H | H];
        [exact H | exfalso; auto].
    + destruct (check_bbox_validness_cases (map box_of c)) as [H | H];
        [exact H | exfalso; auto].
Qed.

Lemma intersection_within_fails_on_invalid_box_witness :
  intersection_within (map box_of [mkRBox 0 0 1 1]) (map box_of [mkRBox 0 0 1 (-2)])
  = Err AssertionError /\
  intersection (map box_of [mkRBox 0 0 1 1]) (map box_of [mkRBox 0 0 1 (-2)])
  = Err AssertionError.
Proof.
  destruct (intersection_within_fails_on_invalid_box
              [mkRBox 0 0 1 1] [mkRBox 0 0 1 (-2)]) as (Hiff & Himp & _).
  assert (E : intersection_within (map box_of [mkRBox 0 0 1 1])
                                  (map box_of [mkRBox 0 0 1 (-2)])
              = Err AssertionError).
  { apply Hiff. right. constructor. simpl. lra. }
  split; [exact E | exact (Himp E)].
Defined.

(* ------------------------------------------------------------------ *)
(** *** Clamping before the geometry *)

Lemma clamp_bbox_real (b : list rbox) :
  clamp_bbox (map box_of b) =
  map box_of
      (map (fun v => mkRBox (rx v) (ry v) (Rmax (rw v) 0) (Rmax (rh v) 0)) b).
Proof.
  assert (H : forall w : R, fsub (Fin w) (fmin (Fin w) (Fin 0)) = Fin (Rmax w 0)).
  { intros w. unfold fsub, fmin, fneg, fadd, Rmax, Rmin.
    repeat destruct (Rle_dec _ _); f_equal; lra. }
  unfold clamp_bbox. rewrite !map_map. apply map_ext. intros v.
  unfold box_of; cbn [box_x box_y box_w box_h rx ry rw rh].
  rewrite !H. reflexivity.
Qed.

Lemma clamped_valid (b : list rbox) :
  Forall valid
    (map (fun v => mkRBox (rx v) (ry v) (Rmax (rw v) 0) (Rmax (rh v) 0)) b).
Proof.
  apply Forall_forall. intros v Hv. apply in_map_iff in Hv.
  destruct Hv as (u & <- & _). unfold valid. simpl.
  split; apply Rmax_r.
Qed.

(** X11: boxes with arbitrary real widths and heights pass the validity
    check once they went through [clamp_bbox], so [intersection] and [iou]
    of clamped boxes never fail; [clamp_bbox] leaves valid boxes unchanged
    and clamping twice is clamping once. *)
Theorem clamp_bbox_makes_valid (a b : list rbox) :
  check_bbox_validness (clamp_bbox (map box_of a)) = Ok tt /\
  (exists rs, intersection (clamp_bbox (map box_of a))
                           (clamp_bbox (map box_of b)) = Ok rs) /\
  (exists rs, iou (clamp_bbox (map box_of a))
                  (clamp_bbox (map box_of b)) = Ok rs) /\
  clamp_bbox (clamp_bbox (map box_of a)) = clamp_bbox (map box_of a) /\
  (Forall valid a -> clamp_bbox (map box_of a) = map box_of a).
Proof.
  rewrite !clamp_bbox_real.
  split; [apply check_bbox_validness_ok, clamped_valid|].
  split; [eexists; apply intersection_real; apply clamped_valid|].
  split; [eexists; apply iou_real; apply clamped_valid|].
  split.
  - f_equal. rewrite map_map. apply map_ext.
    intros v. simpl. f_equal; apply Rmax_left; apply Rmax_r.
  - intros Hv. f_equal. rewrite <- (map_id a) at 2. apply map_ext_in.
    intros v Hin. rewrite Forall_forall in Hv. destruct (Hv v Hin) as [Hw Hh].
    destruct v as [x y w h]. simpl in *. f_equal; apply Rmax_left; lra.
Qed.

Lemma clamp_bbox_makes_valid_witness :
  check_bbox_validness (clamp_bbox (map box_of [mkRBox 0 0 (-1) 2])) = Ok tt /\
  clamp_bbox (map box_of [mkRBox 0 0 1 2]) = map box_of [mkRBox 0 0 1 2].
Proof.
  split.
  - apply (clamp_bbox_makes_valid [mkRBox 0 0 (-1) 2] []).
  - apply (clamp_bbox_makes_valid [mkRBox 0 0 1 2] []).
    repeat constructor; unfold valid; simpl; lra.
Defined.

(* ================================================================== *)
(** ** Gradient clipping and diagnostics *)















Lemma count_pos_existsb (cond : fval -> bool) (x : list fval) :
  count_pos cond x = existsb cond x.
Proof.
  unfold count_pos. induction x as [|v x IH]; simpl; [reflexivity|].
  destruct (cond v); simpl; [reflexivity | exact IH].
Qed.

Lemma anynan_or_anybig (g : list fval) :
  anynan g || anybig g = existsb bad_entry g.
Proof.
  unfold anynan, anybig. rewrite !count_pos_existsb.
  induction g as [|v g IH]; [reflexivity|].
  cbn [existsb]. rewrite <- IH. unfold bad_entry.
  generalize (fne v v), (fgt (fabs v) (Fin 100000)),
             (existsb (fun v => fne v v) g),
             (existsb (fun v => fgt (fabs v) (Fin 100000)) g).
  intros [] [] [] []; reflexivity.
Qed.

Lemma check_grads_loop (nps : list (string * param)) (b : bool)
    (log : list string) :
  fold_left (fun st np =>
               match grad (snd np) with
               | Some g =>
                   if anynan g || anybig g
                   then (true, snd st ++ [fst np])
                   else st
               | None => st
               end) nps (b, log)
  = (b || existsb failing nps, log ++ map fst (filter failing nps)).
Proof.
  revert b log. induction nps as [|[n [gr]] nps IH]; intros b log.
  - simpl. rewrite orb_false_r, app_nil_r. reflexivity.
  - cbn [fold_left existsb filter].
    change (failing (n, mkParam gr))
      with (match gr with Some g => existsb bad_entry g | None => false end).
    cbn [snd fst grad]. destruct gr as [g|].
    + rewrite anynan_or_anybig. destruct (existsb bad_entry g).
      * cbn [snd map fst]. rewrite IH, <- app_assoc.
        destruct b; reflexivity.
      * rewrite IH. reflexivity.
    + rewrite IH. reflexivity.
Qed.

(** X14: [check_grads] returns true exactly when some parameter has a
    gradient with an entry that is [nan], infinite or larger than 1e5 in
    magnitude, and it prints the names of exactly these parameters, in
    order; parameters without a gradient are skipped. *)
Theorem check_grads_reports (nps : list (string * param)) :
  check_grads nps = (existsb failing nps, map fst (filter failing nps)) /\
  (forall v, bad_entry v = true <->
             v = NaN \/ v = PInf \/ v = NInf \/
             exists r, v = Fin r /\ 100000 < Rabs r) /\
  (fst (check_grads nps) = false <-> snd (check_grads nps) = []).
Proof.
  assert (E : check_grads nps =
              (existsb failing nps, map fst (filter failing nps))).
  { unfold check_grads. rewrite check_grads_loop. reflexivity. }
  split; [exact E|]. split.
  - intros v. unfold bad_entry, fne, feq, fgt, flt, fabs.
    destruct v as [r| | |]; simpl.
    + rewrite (proj2 (Reqb_eq r r)) by reflexivity. simpl. rewrite Rltb_lt.
      split.
      * intros H. right; right; right. exists r. split; [reflexivity|exact H].
      * intros [H | [H | [H | (r' & H & Hr)]]]; try discriminate.
        injection H as ->. exact Hr.
    + split; [intros _; right; left; reflexivity | reflexivity].
    + split; [intros _; right; right; left; reflexivity | reflexivity].
    + split; [intros _; left; reflexivity | reflexivity].
  - rewrite E. simpl. clear E.
    induction nps as [|np nps IH]; simpl; [tauto|].
    destruct (failing np); simpl; [split; discriminate | exact IH].
Qed.

(* ================================================================== *)
(** ** Range of the masked mean *)















(* ------------------------------------------------------------------ *)
(** *** [nan] is not masked *)

Lemma fsum_nan (l : list fval) : In NaN l -> fsum l = NaN.
Proof.
  unfold fsum. generalize (Fin 0) as acc.
  induction l as [|v l IH]; intros acc; simpl; [tauto|].
  intros [-> | Hin]; [|apply IH; assumption].
  replace (fadd acc NaN) with NaN by (destruct acc; reflexivity).
  clear. induction l as [|u l IH]; simpl; [reflexivity | exact IH].
Qed.

Lemma In_zip_with_nan (xs ps : list fval) :
  In NaN xs -> length xs = length ps ->
  In NaN (zip_with fmul (map nll xs) (map present ps)).
Proof.
  revert ps. induction xs as [|v xs IH]; intros [|p ps] Hin Hlen;
    simpl in *; try tauto; try discriminate.
  destruct Hin as [-> | Hin]; [left; reflexivity|].
  right. apply IH; [assumption | lia].
Qed.

Lemma masked_rows_nan_slot (x presence : list (list fval)) :
  same_shape x presence ->
  Exists (fun xs => In NaN xs) x ->
  In NaN (zip_with (fun xp w => row_nll (fst xp) (snd xp) w)
                   (combine x presence) (repeat None (length x))).
Proof.
  intros Hs Hex.
  induction Hs as [|xs ps x presence Hlen _ IH]; [inversion Hex|].
  simpl. inversion Hex as [? ? Hin | ? ? Hex']; subst.
  - left. unfold row_nll, weighted_row.
    rewrite (fsum_nan _ (In_zip_with_nan xs ps Hin Hlen)). reflexivity.
  - right. apply IH. assumption.
Qed.

(** X16: [masked_nll] multiplies by the presence indicator instead of
    selecting, so a [nan] loss entry anywhere in the tensor, also at a
    position whose presence is 0, makes the result [nan]. *)
Theorem masked_nll_nan_entry (x presence : list (list fval)) :
  same_shape x presence ->
  Exists (fun xs => In NaN xs) x ->
  masked_nll x presence None = NaN.
Proof.
  intros Hs Hex. unfold masked_nll. cbv zeta.
  rewrite masked_rows_by_row. simpl row_weights.
  rewrite fsum_nan; [reflexivity|].
  apply masked_rows_nan_slot; assumption.
Qed.

Lemma masked_nll_nan_entry_witness :
  masked_nll [[Fin 1; NaN]] [[Fin 1; Fin 0]] None = NaN.
Proof.
  apply masked_nll_nan_entry.
  - repeat constructor.
  - apply Exists_cons_hd. right. left. reflexivity.
Defined.

(* ================================================================== *)
(** ** Box losses *)

Lemma firstn_length_app {A : Type} (r l : list A) :
  firstn (length r) (r ++ l) = r.
Proof. induction r as [|a r IH]; simpl; [destruct l; reflexivity|]. rewrite IH. reflexivity. Qed.

Lemma skipn_length_app {A : Type} (r l : list A) :
  skipn (length r) (r ++ l) = l.
Proof. induction r as [|a r IH]; simpl; [reflexivity | exact IH]. Qed.

Lemma unflatten_concat_shape {A B : Type} (a : list (list A))
    (c : list (list B)) :
  same_shape a c -> unflatten (map (@length A) a) (concat c) = c.
Proof.
  induction 1 as [|r s a c Hlen _ IH]; simpl; [reflexivity|].
  rewrite Hlen, firstn_length_app, skipn_length_app, IH. reflexivity.
Qed.

Lemma zip_with_app {A B C : Type} (f : A -> B -> C) (r l : list A)
    (s m : list B) :
  length r = length s ->
  zip_with f (r ++ l) (s ++ m) = zip_with f r s ++ zip_with f l m.
Proof.
  revert s. induction r as [|a r IH]; intros [|b s] H; simpl in *;
    try discriminate; [reflexivity|].
  rewrite IH by lia. reflexivity.
Qed.

Lemma zip_with_concat {A B C : Type} (f : A -> B -> C) (a : list (list A))
    (b : list (list B)) :
  same_shape a b ->
  zip_with f (concat a) (concat b) = concat (zip_with (zip_with f) a b).
Proof.
  induction 1 as [|r s a b Hlen _ IH]; simpl; [reflexivity|].
  rewrite zip_with_app, IH by assumption. reflexivity.
Qed.

Lemma same_shape_zip_with {A B C : Type} (f : A -> B -> C) (a : list (list A))
    (b : list (list B)) :
  same_shape a b -> same_shape a (zip_with (zip_with f) a b).
Proof.
  induction 1 as [|r s a b Hlen _ IH]; simpl; constructor; [|exact IH].
  symmetry. apply zip_with_length. assumption.
Qed.


Lemma same_shape_trans_l {A B C : Type} (a : list (list A)) (b : list (list B))
    (c : list (list C)) :
  same_shape a b -> same_shape a c -> same_shape b c.
Proof.
  intros Hab. revert c. induction Hab as [|r s a b Hlen _ IH]; intros c Hac.
  - inversion Hac; subst. constructor.
  - inversion Hac as [|? t ? c' Hlen' Hac']; subst. constructor.
    + congruence.
    + apply IH. assumption.
Qed.

Lemma boxes_shape (a : list (list rbox)) :
  map (@length box) (map (map box_of) a) = map (@length rbox) a.
Proof. rewrite map_map. apply map_ext. intros l. apply length_map. Qed.

Lemma iou_loss_real (a b : list (list rbox)) (presence : list (list fval)) :
  Forall (Forall valid) a -> Forall (Forall valid) b -> same_shape a b ->
  iou_loss (map (map box_of) a) (map (map box_of) b) presence =
  Ok (masked_nll (zip_with (zip_with iou_elem) a b) presence None).
Proof.
  intros Ha Hb Hs. unfold iou_loss.
  rewrite <- !concat_map, iou_real by (apply Forall_concat; assumption).
  simpl. rewrite boxes_shape, (zip_with_concat iou_elem a b Hs).
  rewrite (unflatten_concat_shape a _ (same_shape_zip_with iou_elem a b Hs)).
  reflexivity.
Qed.







Lemma iou_elem_nan (u v : rbox) :
  valid u -> valid v -> area u = 0 -> area v = 0 -> iou_elem u v = NaN.
Proof.
  intros Hu Hv Hau Hav.
  destruct (inter_R_bounds u v Hu Hv) as [H0 Hmin].
  pose proof (Rmin_l (area u) (area v)).
  assert (Hi : inter_R u v = 0) by lra.
  unfold iou_elem. rewrite Hi, Hau, Hav. unfold fdiv, signed.
  rewrite (proj2 (Reqb_eq _ 0)) by lra.
  rewrite (proj2 (Rltb_ge 0 0)) by lra. reflexivity.
Qed.

(** X18: [iou_loss] does not protect padding: if any slot, present or not,
    holds a prediction and a target that both have area 0 (as all-zero
    padding boxes do), the loss is [nan]. *)
Theorem iou_loss_zero_area_slot_nan (a b : list (list rbox))
    (presence : list (list fval)) (i j : nat) (l m : list rbox) (u v : rbox) :
  Forall (Forall valid) a -> Forall (Forall valid) b ->
  same_shape a b -> same_shape a presence ->
  nth_error a i = Some l -> nth_error l j = Some u ->
  nth_error b i = Some m -> nth_error m j = Some v ->
  area u = 0 -> area v = 0 ->
  iou_loss (map (map box_of) a) (map (map box_of) b) presence = Ok NaN.
Proof.
  intros Ha Hb Hs Hp Hl Hu Hm Hv Hau Hav.
  rewrite iou_loss_real by assumption. f_equal.
  unfold masked_nll. cbv zeta. rewrite masked_rows_by_row. simpl row_weights.
  rewrite fsum_nan; [reflexivity|].
  apply masked_rows_nan_slot.
  - eapply same_shape_trans_l; [|exact Hp].
    apply same_shape_zip_with. assumption.
  - apply Exists_exists. exists (zip_with iou_elem l m). split.
    + apply (nth_error_In _ i). rewrite nth_error_zip_with, Hl, Hm.
      reflexivity.
    + apply (nth_error_In _ j). rewrite nth_error_zip_with, Hu, Hv.
      f_equal. apply iou_elem_nan; try assumption.
      * rewrite Forall_forall in Ha.
        pose proof (Ha l (nth_error_In _ _ Hl)) as Hl'.
        rewrite Forall_forall in Hl'. apply Hl'.
        eapply nth_error_In; eassumption.
      * rewrite Forall_forall in Hb.
        pose proof (Hb m (nth_error_In _ _ Hm)) as Hm'.
        rewrite Forall_forall in Hm'. apply Hm'.
        eapply nth_error_In; eassumption.
Qed.

Lemma iou_loss_zero_area_slot_nan_witness :
  iou_loss (map (map box_of) [[mkRBox 0 0 2 2; mkRBox 0 0 0 0]])
           (map (map box_of) [[mkRBox 0 0 2 2; mkRBox 0 0 0 0]])
           (tensor_of [[1; 0]]) = Ok NaN.
Proof.
  apply (iou_loss_zero_area_slot_nan
           [[mkRBox 0 0 2 2; mkRBox 0 0 0 0]] [[mkRBox 0 0 2 2; mkRBox 0 0 0 0]]
           (tensor_of [[1; 0]]) 0 1
           [mkRBox 0 0 2 2; mkRBox 0 0 0 0] [mkRBox 0 0 2 2; mkRBox 0 0 0 0]
           (mkRBox 0 0 0 0) (mkRBox 0 0 0 0));
    try reflexivity; try (unfold area; simpl; lra);
    repeat constructor; unfold valid; simpl; lra.
Defined.






Lemma intersection_err_iff (a b : list box) :
  intersection a b = Err AssertionError <->
  check_bbox_validness a = Err AssertionError \/
  check_bbox_validness b = Err AssertionError.
Proof.
  unfold intersection.
  destruct (check_bbox_validness_cases a) as [-> | ->],
           (check_bbox_validness_cases b) as [-> | ->]; simpl;
    split; intros H; try reflexivity; try discriminate; auto;
    destruct H; discriminate.
Qed.

Lemma check_concat_err (a : list (list rbox)) :
  check_bbox_validness (concat (map (map box_of) a)) = Err AssertionError <->
  Exists (Exists (fun v => rw v < 0 \/ rh v < 0)) a.
Proof.
  rewrite <- concat_map, check_bbox_validness_err. apply Exists_concat.
Qed.

(** X20: [iou_loss] and [intersection_loss] fail with the assertion error
    exactly when some predicted or target box has a negative width or
    height, whatever its presence flag; otherwise they return a value. *)
Theorem box_losses_fail_on_invalid_box (a b : list (list rbox))
    (presence : list (list fval)) :
  let invalid := Exists (Exists (fun v : rbox => rw v < 0 \/ rh v < 0)) in
  (iou_loss (map (map box_of) a) (map (map box_of) b) presence
   = Err AssertionError <-> invalid a \/ invalid b) /\
  (intersection_loss (map (map box_of) a) (map (map box_of) b) presence
   = Err AssertionError <-> invalid a \/ invalid b) /\
  (~ (invalid a \/ invalid b) ->
   (exists v, iou_loss (map (map box_of) a) (map (map box_of) b) presence
              = Ok v) /\
   (exists v, intersection_loss (map (map box_of) a) (map (map box_of) b)
                                presence = Ok v)).
Proof.
  intros invalid. unfold invalid.
  rewrite <- !check_concat_err, <- intersection_err_iff.
  unfold iou_loss, intersection_loss, iou. cbv zeta.
  destruct (intersection (concat (map (map box_of) a))
                         (concat (map (map box_of) b))) as [i | []]; simpl.
  - repeat split; try discriminate; eexists; reflexivity.
  - repeat split; try reflexivity; exfalso; auto.
Qed.

Lemma box_losses_fail_on_invalid_box_witness :
  (exists v, iou_loss (map (map box_of) [[mkRBox 0 0 1 1]])
                      (map (map box_of) [[mkRBox 0 0 1 1]])
                      (tensor_of [[1]]) = Ok v) /\
  iou_loss (map (map box_of) [[mkRBox 0 0 (-1) 1]])
           (map (map box_of) [[mkRBox 0 0 1 1]])
           (tensor_of [[0]]) = Err AssertionError.
Proof.
  split.
  - destruct (box_losses_fail_on_invalid_box
                [[mkRBox 0 0 1 1]] [[mkRBox 0 0 1 1]] (tensor_of [[1]]))
      as (_ & _ & Hok).
    apply Hok.
    intros [H | H]; inversion H as [? ? H1 | ? ? H1]; subst;
      inversion H1 as [? ? H2 | ? ? H2]; subst;
      try (simpl in H2; lra); inversion H2.
  - destruct (box_losses_fail_on_invalid_box
                [[mkRBox 0 0 (-1) 1]] [[mkRBox 0 0 1 1]] (tensor_of [[0]]))
      as (Herr & _ & _).
    apply Herr. left. repeat constructor. simpl. lra.
Defined.

(* ------------------------------------------------------------------ *)
(** *** [area_loss] *)








(* ================================================================== *)
(** ** Convolution sizes *)





(* ================================================================== *)
(** ** Image normalisation *)




(** X25: every channel that [torch_unnormalize_image] returns for a real
    three-channel image lies in [[0, 1]]. *)
Theorem unnormalize_in_unit_range (x : list (list R)) :
  Forall (fun px => length px = 3%nat) x ->
  Forall (Forall (in_range 0 1)) (torch_unnormalize_image (tensor_of x)).
Proof.
  intros H3. unfold torch_unnormalize_image, tensor_of. rewrite map_map.
  apply Forall_forall. intros px Hpx. apply in_map_iff in Hpx.
  destruct Hpx as (p & <- & Hp).
  rewrite Forall_forall in H3. specialize (H3 p Hp).
  destruct p as [|a [|b [|c [|d p]]]]; try discriminate.
  unfold image_mean, image_std. cbn [map zip_with fmul fadd fmax fmin].
  repeat constructor; eexists; (split; [reflexivity|]);
    unfold Rmin, Rmax; repeat destruct (Rle_dec _ _); lra.
Qed.

Lemma unnormalize_in_unit_range_witness :
  Forall (Forall (in_range 0 1))
         (torch_unnormalize_image (tensor_of [[5; -3; 1 / 2]])).
Proof. apply unnormalize_in_unit_range. repeat constructor. Defined.

(* ================================================================== *)
(** ** The region raster *)

Section RegionRaster.
Local Open Scope Q_scope.

Lemma bbox_to_mask_stages
    (resize : list (list Z) -> nat * nat -> list (list Z))
    (yy : qbox) (region_size : Q * Q) (output_size : nat * nat) :
  _bbox_to_mask resize yy region_size output_size =
  map (map (fun v => inject_Z v / 255))
      (imresize resize (region_mask yy region_size) output_size).
Proof. reflexivity. Qed.

Lemma py_int_of_Z (q : Q) (z : Z) :
  q == inject_Z z -> (0 <= z)%Z -> py_int q = z.
Proof.
  intros Hq Hz. rewrite py_int_floor.
  - rewrite Hq. apply Qfloor_Z.
  - rewrite Hq. change 0 with (inject_Z 0). rewrite <- Zle_Qle. exact Hz.
Qed.

Lemma round_half_even_of_Z (q : Q) (z : Z) :
  q == inject_Z z -> round_half_even q = z.
Proof.
  intros Hq. unfold round_half_even.
  assert (Hf : Qfloor q = z) by (rewrite Hq; apply Qfloor_Z).
  rewrite Hf.
  assert (Hc : Qcompare (q - inject_Z z) (1 # 2) = Lt).
  { apply Qlt_alt.
    assert (H0 : q - inject_Z z == 0) by (rewrite Hq; ring).
    rewrite H0. reflexivity. }
  rewrite Hc. reflexivity.
Qed.

Lemma round_half_even_ge_floor (q : Q) : (Qfloor q <= round_half_even q)%Z.
Proof.
  unfold round_half_even.
  destruct (Qcompare (q - inject_Z (Qfloor q)) (1 # 2));
    [destruct (Z.even (Qfloor q))| |]; lia.
Qed.

Lemma py_max_nonneg_l (a : Q) : 0 <= a -> py_max a 0 = a.
Proof.
  intros H. unfold py_max. destruct (Qcompare a 0) eqn:E; try reflexivity.
  apply Qlt_alt in E. exfalso. apply (Qlt_irrefl a).
  eapply Qlt_le_trans; eassumption.
Qed.

Lemma py_max_nonpos_l (a : Q) : a <= 0 -> py_max a 0 == 0.
Proof.
  intros H. unfold py_max. destruct (Qcompare a 0) eqn:E; try reflexivity.
  - apply Qeq_alt in E. exact E.
  - apply Qgt_alt in E. exfalso. apply (Qlt_irrefl a).
    eapply Qle_lt_trans; eassumption.
Qed.

Lemma py_min_le_l (a b : Q) : a <= b -> py_min a b = a.
Proof.
  intros H. unfold py_min. destruct (Qcompare b a) eqn:E; try reflexivity.
  apply Qlt_alt in E. exfalso. apply (Qlt_irrefl a).
  eapply Qle_lt_trans; eassumption.
Qed.

Lemma inject_Z_sub (a b : Z) : inject_Z (a - b) == inject_Z a - inject_Z b.
Proof. unfold Z.sub. rewrite inject_Z_plus, inject_Z_opp. ring. Qed.

Lemma map_firstn_id {A : Type} (m : nat) (rows : list (list A)) :
  Forall (fun row => (length row <= m)%nat) rows -> map (firstn m) rows = rows.
Proof.
  induction 1 as [|row rows Hrow _ IH]; simpl; [reflexivity|].
  rewrite firstn_all2 by assumption. rewrite IH. reflexivity.
Qed.

(** X26: a box with integer corner and size (at least 1 x 1) that lies
    inside a region of integer size is rasterised, before resampling, to
    a raster of the region's size that holds ones exactly in the rows
    [y .. y+h) and columns [x .. x+w) of the box. *)
Theorem region_mask_integer_box (x y w h rows cols : Z) :
  (0 <= x)%Z -> (0 <= y)%Z -> (1 <= w)%Z -> (1 <= h)%Z ->
  (x + w <= cols)%Z -> (y + h <= rows)%Z ->
  region_mask (mkQBox (inject_Z x) (inject_Z y) (inject_Z w) (inject_Z h))
              (inject_Z rows, inject_Z cols)
  = repeat (repeat 0 (Z.to_nat cols)) (Z.to_nat y)
      ++ repeat (repeat 0 (Z.to_nat x) ++ repeat 1 (Z.to_nat w)
                   ++ repeat 0 (Z.to_nat (cols - x - w)))
                (Z.to_nat h)
      ++ repeat (repeat 0 (Z.to_nat cols)) (Z.to_nat (rows - y - h)).
Proof.
  intros Hx Hy Hw Hh Hc Hr. unfold region_mask. cbv zeta.
  cbn [qx qy qw qh fst snd].
  assert (Qx : 0 <= inject_Z x) by (change 0 with (inject_Z 0); rewrite <- Zle_Qle; exact Hx).
  assert (Qy : 0 <= inject_Z y) by (change 0 with (inject_Z 0); rewrite <- Zle_Qle; exact Hy).
  assert (Ew : round_half_even (inject_Z w - py_max (- inject_Z x) 0) = w).
  { apply round_half_even_of_Z. rewrite py_max_nonpos_l; [ring | lra]. }
  assert (Eh : round_half_even (inject_Z h - py_max (- inject_Z y) 0) = h).
  { apply round_half_even_of_Z. rewrite py_max_nonpos_l; [ring | lra]. }
  rewrite Ew, Eh, !py_max_nonneg_l by assumption.
  rewrite !py_min_le_l
    by (rewrite <- inject_Z_plus, <- Zle_Qle; assumption).
  rewrite (py_int_of_Z (inject_Z x) x), (py_int_of_Z (inject_Z y) y),
          (py_int_of_Z (inject_Z rows) rows), (py_int_of_Z (inject_Z cols) cols)
    by (try reflexivity; lia).
  rewrite (py_int_of_Z (inject_Z cols - (inject_Z x + inject_Z w)) (cols - x - w))
    by (try lia; rewrite !inject_Z_sub; ring).
  rewrite (py_int_of_Z (inject_Z rows - (inject_Z y + inject_Z h)) (rows - y - h))
    by (try lia; rewrite !inject_Z_sub; ring).
  replace (Z.max w 1) with w by lia. replace (Z.max h 1) with h by lia.
  replace (Z.max rows 1) with rows by lia.
  replace (Z.max cols 1) with cols by lia.
  rewrite pad_ones by lia. cbv zeta.
  set (crow := repeat 0 (Z.to_nat x) ++ repeat 1 (Z.to_nat w)
                      ++ repeat 0 (Z.to_nat (cols - x - w))).
  assert (Hlen : length crow = Z.to_nat cols).
  { unfold crow. rewrite !length_app, !repeat_length. lia. }
  rewrite Hlen.
  rewrite firstn_all2
    by (rewrite !length_app, !repeat_length; lia).
  apply map_firstn_id.
  repeat (apply Forall_app; split); apply Forall_repeat;
    rewrite ?repeat_length, ?Hlen; lia.
Qed.

Lemma region_mask_integer_box_witness :
  region_mask (mkQBox (inject_Z 1) (inject_Z 0) (inject_Z 2) (inject_Z 1))
              (inject_Z 2, inject_Z 4)
  = repeat (repeat 0 (Z.to_nat 4)) (Z.to_nat 0)
      ++ repeat (repeat 0 (Z.to_nat 1) ++ repeat 1 (Z.to_nat 2)
                   ++ repeat 0 (Z.to_nat (4 - 1 - 2)))
                (Z.to_nat 1)
      ++ repeat (repeat 0 (Z.to_nat 4)) (Z.to_nat (2 - 0 - 1)).
Proof. apply region_mask_integer_box; lia. Defined.

Lemma bytescale_ones (n k : nat) :
  (0 < n)%nat -> (0 < k)%nat ->
  bytescale (repeat (repeat 1 k) n) = repeat (repeat 0%Z k) n.
Proof.
  intros Hn Hk.
  assert (Ho : Forall (fun v => v = 1) (concat (repeat (repeat 1 k) n))).
  { clear. induction n as [|n IH]; simpl; [constructor|].
    apply Forall_app. split; [apply Forall_repeat; reflexivity | exact IH]. }
  assert (Hfold : forall f : Q -> Q -> Q, f 1 1 = 1 ->
             raster_fold f (repeat (repeat 1 k) n) = 1).
  { intros f Hf. unfold raster_fold.
    destruct n as [|n]; [lia|]. destruct k as [|k]; [lia|].
    simpl in *. inversion Ho as [|? ? _ Hr]; subst. clear Ho.
    induction Hr as [|u r Hu _ IH]; simpl; [reflexivity|].
    rewrite Hu, Hf. exact IH. }
  unfold bytescale.
  rewrite (Hfold py_min eq_refl), (Hfold py_max eq_refl).
  rewrite map_repeat, map_repeat. reflexivity.
Qed.

Lemma region_mask_full_cover (yy : qbox) (R0 R1 : Q) :
  qx yy <= 0 -> qy yy <= 0 -> 0 <= R0 -> 0 <= R1 ->
  R1 <= qx yy + qw yy -> R0 <= qy yy + qh yy ->
  region_mask yy (R0, R1) =
  repeat (repeat 1 (Z.to_nat (Z.max (py_int R1) 1)))
         (Z.to_nat (Z.max (py_int R0) 1)).
Proof.
  intros Hx Hy HR0 HR1 Hcx Hcy. unfold region_mask. cbv zeta.
  cbn [fst snd].
  set (cw := Z.max (round_half_even (qw yy - py_max (- qx yy) 0)) 1).
  set (ch := Z.max (round_half_even (qh yy - py_max (- qy yy) 0)) 1).
  set (n := Z.to_nat (Z.max (py_int R0) 1)).
  set (m := Z.to_nat (Z.max (py_int R1) 1)).
  assert (HL : py_int (py_max (qx yy) 0) = 0%Z)
    by (apply py_int_of_Z; [apply py_max_nonpos_l; assumption | lia]).
  assert (HT : py_int (py_max (qy yy) 0) = 0%Z)
    by (apply py_int_of_Z; [apply py_max_nonpos_l; assumption | lia]).
  assert (HRp : (0 <= py_int (R1 - py_min (qx yy + qw yy) R1))%Z).
  { apply py_int_nonneg. pose proof (py_min_r (qx yy + qw yy) R1). lra. }
  assert (HB : (0 <= py_int (R0 - py_min (qy yy + qh yy) R0))%Z).
  { apply py_int_nonneg. pose proof (py_min_r (qy yy + qh yy) R0). lra. }
  assert (Hm : (m <= Z.to_nat cw)%nat).
  { unfold m, cw. rewrite py_max_nonneg_l by lra.
    rewrite (py_int_floor R1 HR1).
    pose proof (round_half_even_ge_floor (qw yy - - qx yy)).
    pose proof (Qfloor_resp_le R1 (qw yy - - qx yy) ltac:(lra)). lia. }
  assert (Hn : (n <= Z.to_nat ch)%nat).
  { unfold n, ch. rewrite py_max_nonneg_l by lra.
    rewrite (py_int_floor R0 HR0).
    pose proof (round_half_even_ge_floor (qh yy - - qy yy)).
    pose proof (Qfloor_resp_le R0 (qh yy - - qy yy) ltac:(lra)). lia. }
  rewrite HL, HT. rewrite pad_ones by (try assumption; unfold ch; lia).
  cbv zeta. cbn [Z.to_nat repeat app].
  rewrite (firstn_repeat_app _ n (Z.to_nat ch) _ Hn).
  rewrite map_repeat. f_equal.
  apply (firstn_repeat_app 1 m (Z.to_nat cw) _ Hm).
Qed.

(** X27: a box that covers the whole region is rasterised to ones only;
    [scipy.misc.imresize] rescales the intensities of its input with
    [bytescale], which maps a constant image to 0, so the returned raster
    is all zero, as it is for a box outside the region. *)
Theorem bbox_to_mask_full_cover_is_zero
    (resize : list (list Z) -> nat * nat -> list (list Z))
    (yy : qbox) (R0 R1 : Q) (output_size : nat * nat) :
  resize_keeps_zero resize ->
  qx yy <= 0 -> qy yy <= 0 -> 0 <= R0 -> 0 <= R1 ->
  R1 <= qx yy + qw yy -> R0 <= qy yy + qh yy ->
  Forall (Forall (fun v => v = 1)) (region_mask yy (R0, R1)) /\
  zero_raster output_size (_bbox_to_mask resize yy (R0, R1) output_size).
Proof.
  intros Hres Hx Hy HR0 HR1 Hcx Hcy.
  rewrite bbox_to_mask_stages.
  rewrite (region_mask_full_cover yy R0 R1 Hx Hy HR0 HR1 Hcx Hcy).
  split.
  - apply Forall_repeat, Forall_repeat. reflexivity.
  - destruct output_size as [r c]. unfold imresize.
    rewrite bytescale_ones by lia.
    rewrite (Hres _ _ r c) by lia.
    rewrite map_repeat, map_repeat. unfold zero_raster. simpl.
    split; [apply repeat_length|].
    apply Forall_repeat. split; [apply repeat_length|].
    apply Forall_repeat. reflexivity.
Qed.

Lemma bbox_to_mask_full_cover_is_zero_witness :
  Forall (Forall (fun v => v = 1)) (region_mask (mkQBox (-1) 0 12 10) (10, 10)) /\
  zero_raster (4%nat, 4%nat)
    (_bbox_to_mask nearest_resize (mkQBox (-1) 0 12 10) (10, 10)
                   (4%nat, 4%nat)).
Proof.
  apply bbox_to_mask_full_cover_is_zero;
    try exact nearest_resize_keeps_zero;
    simpl; unfold Qle; simpl; lia.
Defined.

End RegionRaster.
